(** * Ferret-Compiler, app/cmd/libs/map.cpp: the raw-C associative buffer

    A shallow embedding of [class Map] (constructor, [put], [get]) and the
    properties of its linear-scan lookup and doubling growth.

    - [size_t] is a 64-bit unsigned integer: an [N] whose arithmetic is
      reduced modulo 2^64 ([wrap]).
    - [const char*] is an address ([ptr]); the caller-owned text behind an
      address is given by a store [text : ptr -> string], and [strcmp]
      compares the text up to the first NUL.
    - The backing buffer is a list of slots; a slot holds [None] until it is
      written. Reading an unwritten slot, or reading or writing a slot outside
      the allocation, is undefined behaviour: the method has no result
      ([None] in the monad [M]). *)

From Stdlib Require Import NArith ZArith Lia Ascii String.
From stdpp Require Import base option list.

Local Open Scope N_scope.

(** ** Machine integers and addresses *)

Definition SIZE_WIDTH : N := 64.

Definition wrap (n : N) : N := n mod 2 ^ SIZE_WIDTH.

Definition ptr : Type := N.

Definition nullptr : ptr := 0.

(** ** <cstring>: strcmp on NUL-terminated text

    The end of the Rocq string stands for the terminating NUL; a NUL
    character inside the string terminates the text earlier, as in C. *)

Definition uchar (c : ascii) : N := N_of_ascii c.

Fixpoint strcmp (s1 s2 : string) : Z :=
  match s1, s2 with
  | String c1 r1, String c2 r2 =>
      if uchar c1 =? uchar c2 then
        if uchar c1 =? 0 then 0%Z else strcmp r1 r2
      else (Z.of_N (uchar c1) - Z.of_N (uchar c2))%Z
  | String c1 _, EmptyString => Z.of_N (uchar c1)
  | EmptyString, String c2 _ => (- Z.of_N (uchar c2))%Z
  | EmptyString, EmptyString => 0%Z
  end.

(** The content of a C string: the characters before the first NUL. *)
Fixpoint content (s : string) : string :=
  match s with
  | EmptyString => EmptyString
  | String c r => if uchar c =? 0 then EmptyString else String c (content r)
  end.

(** ** The class *)

Record Entry : Type := mkEntry { key : ptr; value : ptr }.

(** A slot of the backing buffer: [None] while uninitialised. *)
Abbreviation slot := (option Entry) (only parsing).

Record Map : Type := mkMap {
  entries : list slot;
  size : N;
  capacity : N
}.

Definition sizeof_Entry : N := 16.

(** ** <cstdlib>: malloc and realloc, in units of whole entries *)

Definition slots_of (bytes : N) : nat := N.to_nat (bytes / sizeof_Entry).

Definition malloc (bytes : N) : list slot := replicate (slots_of bytes) None.

Definition realloc (buf : list slot) (bytes : N) : list slot :=
  take (slots_of bytes) buf ++ replicate (slots_of bytes - length buf) None.

(** ** Methods as state transformers with undefined behaviour *)

Definition M (A : Type) : Type := Map -> option (A * Map).

Definition ret {A : Type} (a : A) : M A := fun m => Some (a, m).

Definition bind {A B : Type} (c : M A) (f : A -> M B) : M B :=
  fun m => match c m with
           | Some (a, m') => f a m'
           | None => None
           end.

Notation "x <- c1 ;; c2" := (bind c1 (fun x => c2))
  (at level 100, c1 at next level, right associativity).
Notation "c1 ;; c2" := (bind c1 (fun _ => c2))
  (at level 100, right associativity).

Definition load_size : M N := fun m => Some (size m, m).

Definition load_capacity : M N := fun m => Some (capacity m, m).

Definition store_size (n : N) : M unit :=
  fun m => Some (tt, mkMap (entries m) n (capacity m)).

Definition store_capacity (n : N) : M unit :=
  fun m => Some (tt, mkMap (entries m) (size m) n).

Definition realloc_entries (bytes : N) : M unit :=
  fun m => Some (tt, mkMap (realloc (entries m) bytes) (size m) (capacity m)).

(** [entries[i]] as an rvalue. *)
Definition load_entry (i : N) : M Entry :=
  fun m => match entries m !! N.to_nat i with
           | Some (Some e) => Some (e, m)
           | _ => None
           end.

(** [entries[i] = e]. *)
Definition store_entry (i : N) (e : Entry) : M unit :=
  fun m => if decide (N.to_nat i < length (entries m))%nat
           then Some (tt, mkMap (<[N.to_nat i := Some e]> (entries m))
                                (size m) (capacity m))
           else None.

(** [Map(size_t initial_capacity)] *)
Definition Map_new (initial_capacity : N) : Map :=
  mkMap (malloc (wrap (initial_capacity * sizeof_Entry))) 0 initial_capacity.

(** [void put(const char* key, const char* value)] *)
Definition put (k v : ptr) : M unit :=
  sz <- load_size ;;
  cap <- load_capacity ;;
  (if sz =? cap then
     store_capacity (wrap (cap * 2)) ;;
     cap' <- load_capacity ;;
     realloc_entries (wrap (cap' * sizeof_Entry))
   else ret tt) ;;
  i <- load_size ;;
  store_size (wrap (i + 1)) ;;
  store_entry i (mkEntry k v).

Section Text.

(** The caller-owned text behind each address. *)
Variable text : ptr -> string.

(** The loop of [get], with [n] iterations left from index [i]. The body
    does not write [size], so the bound is read once, by [get]. *)
Fixpoint get_loop (k : ptr) (n : nat) (i : N) : M ptr :=
  match n with
  | O => ret nullptr
  | S n' =>
      e <- load_entry i ;;
      if (strcmp (text (key e)) (text k) =? 0)%Z then ret (value e)
      else get_loop k n' (wrap (i + 1))
  end.

(** [const char* get(const char* key) const] *)
Definition get (k : ptr) : M ptr :=
  sz <- load_size ;;
  get_loop k (N.to_nat sz) 0.

End Text.

(** A sequence of [put] calls. *)
Fixpoint puts (ops : list (ptr * ptr)) : M unit :=
  match ops with
  | [] => ret tt
  | (k, v) :: rest => put k v ;; puts rest
  end.

(** ** Specification-level views of a container *)

(** The slots below [size]. *)
Definition stored (m : Map) : list slot := take (N.to_nat (size m)) (entries m).

(** The entries of the container, in insertion order. *)
Definition contents (m : Map) : list Entry := omap id (stored m).

(** The representation invariant of a container that [Map_new] and [put]
    produced: the allocation holds fewer than 2^60 slots (its byte size is a
    [size_t]), at most [capacity] of them, and the slots below [size] are
    initialised. *)
Definition wf (m : Map) : Prop :=
  N.of_nat (length (entries m)) < 2 ^ 60 /\
  N.of_nat (length (entries m)) <= capacity m /\
  size m <= N.of_nat (length (entries m)) /\
  stored m = Some <$> contents m.

(** The linear scan of [get] over a list of entries. *)
Fixpoint scan (text : ptr -> string) (k : ptr) (es : list Entry) : ptr :=
  match es with
  | [] => nullptr
  | e :: rest =>
      if (strcmp (text (key e)) (text k) =? 0)%Z then value e
      else scan text k rest
  end.

(** The entry for each [put] of a sequence. *)
Definition entries_of (ops : list (ptr * ptr)) : list Entry :=
  map (fun kv => mkEntry (fst kv) (snd kv)) ops.

(** ** Notions used in the statements *)

(** The container after the growth branch of [put]. *)
Definition grown (m : Map) : Map :=
  if size m =? capacity m then
    mkMap (realloc (entries m) (wrap (wrap (capacity m * 2) * sizeof_Entry)))
          (size m) (wrap (capacity m * 2))
  else m.

(** The allocation has exactly [capacity] slots: no byte count wrapped. *)
Definition exact (m : Map) : Prop :=
  length (entries m) = N.to_nat (capacity m) /\
  1 <= capacity m /\ capacity m < 2 ^ 60.

(** Construct with [c] and make the [put]s of [ops]; [None] when some [put]
    has undefined behaviour. *)
Definition run (c : N) (ops : list (ptr * ptr)) : option Map :=
  match puts ops (Map_new c) with
  | Some (_, m) => Some m
  | None => None
  end.

(** The run stays within what a 64-bit allocation can hold. *)
Definition fits (c : N) (ops : list (ptr * ptr)) : Prop :=
  c < 2 ^ 60 /\ N.of_nat (length ops) <= 2 ^ 59.

(** The text of two addresses has the same content. *)
Definition same_key (text : ptr -> string) (k1 k2 : ptr) : Prop :=
  content (text k1) = content (text k2).

(** The content of the key of each [put]. *)
Definition key_contents (text : ptr -> string) (ops : list (ptr * ptr))
  : list string :=
  map (fun kv => content (text (fst kv))) ops.

(** The key of [e] has exactly the content of the query key [k]. *)
Definition key_matches (text : ptr -> string) (k : ptr) (e : Entry) : bool :=
  String.eqb (content (text (key e))) (content (text k)).

(** Following the specification: the value of the first entry, in insertion
    order, whose key equals the query key by content; the null pointer when
    no entry matches. *)
Definition lookup_by_content (text : ptr -> string) (k : ptr)
    (es : list Entry) : ptr :=
  match List.find (key_matches text k) es with
  | Some e => value e
  | None => nullptr
  end.

(** The slots from [size] on have not been written. *)
Definition unwritten (m : Map) : Prop :=
  forall i : nat,
    (N.to_nat (size m) <= i < length (entries m))%nat ->
    entries m !! i = Some None.

(** ** A text store for the scenarios

    Addresses 1..9 hold "a" "1" "b" "2" "c" "3" "x" "x" "z"; addresses 7 and 8
    are two distinct references to equal text. *)
Definition demo_text (p : ptr) : string :=
  match p with
  | 1 => "a" | 2 => "1" | 3 => "b" | 4 => "2" | 5 => "c" | 6 => "3"
  | 7 => "x" | 8 => "x" | 9 => "z"
  | _ => EmptyString
  end%string.

(** ** Arithmetic of [size_t] *)

Lemma wrap_small (n : N) : n < 2 ^ 64 -> wrap n = n.
Proof. intros H. unfold wrap, SIZE_WIDTH. now apply N.mod_small. Qed.

Lemma wrap_lt (n : N) : wrap n < 2 ^ 64.
Proof. unfold wrap, SIZE_WIDTH. now apply N.mod_lt. Qed.

Lemma wrap_le (n : N) : wrap n <= n.
Proof. unfold wrap, SIZE_WIDTH. now apply N.Div0.mod_le. Qed.

Lemma slots_of_wrap_lt (c : N) :
  N.of_nat (slots_of (wrap (c * sizeof_Entry))) < 2 ^ 60.
Proof.
  unfold slots_of, sizeof_Entry. rewrite N2Nat.id.
  apply N.Div0.div_lt_upper_bound.
  change (16 * 2 ^ 60) with (2 ^ 64). apply wrap_lt.
Qed.

Lemma slots_of_wrap_le (c : N) :
  N.of_nat (slots_of (wrap (c * sizeof_Entry))) <= c.
Proof.
  unfold slots_of, sizeof_Entry. rewrite N2Nat.id.
  transitivity (c * 16 / 16).
  - apply N.Div0.div_le_mono. apply wrap_le.
  - rewrite N.div_mul by discriminate. reflexivity.
Qed.

Lemma slots_of_wrap_small (c : N) :
  c < 2 ^ 60 -> slots_of (wrap (c * sizeof_Entry)) = N.to_nat c.
Proof.
  intros H. unfold slots_of, sizeof_Entry.
  rewrite wrap_small.
  - rewrite N.div_mul by discriminate. reflexivity.
  - change (2 ^ 64) with (2 ^ 60 * 16). now apply N.mul_lt_mono_pos_r.
Qed.

(** ** strcmp decides equality of content *)

Lemma uchar_inj (a b : ascii) : uchar a = uchar b -> a = b.
Proof.
  unfold uchar. intros H.
  rewrite <- (ascii_N_embedding a), <- (ascii_N_embedding b). now rewrite H.
Qed.

Lemma strcmp_eq_content (s t : string) :
  strcmp s t = 0%Z <-> content s = content t.
Proof.
  revert t. induction s as [|c s IH]; intros [|d t]; simpl.
  - tauto.
  - destruct (N.eqb_spec (uchar d) 0) as [E|E].
    + rewrite E. tauto.
    + split; [lia | discriminate].
  - destruct (N.eqb_spec (uchar c) 0) as [E|E].
    + rewrite E. tauto.
    + split; [lia | discriminate].
  - destruct (N.eqb_spec (uchar c) (uchar d)) as [E|E].
    + rewrite <- E. destruct (N.eqb_spec (uchar c) 0) as [E0|E0].
      * tauto.
      * rewrite IH. apply uchar_inj in E. subst d.
        split; [intros ->; reflexivity | intros H; now inversion H].
    + split; [lia|].
      destruct (N.eqb_spec (uchar c) 0) as [E1|E1];
        destruct (N.eqb_spec (uchar d) 0) as [E2|E2];
        try discriminate.
      * congruence.
      * intros H. inversion H. congruence.
Qed.

(** ** The loop of get is a scan of the stored entries *)

Lemma get_loop_scan (text : ptr -> string) (k : ptr) (es : list Entry) :
  forall (i : N) (m : Map),
    N.of_nat (length (entries m)) < 2 ^ 60 ->
    take (length es) (drop (N.to_nat i) (entries m)) = Some <$> es ->
    get_loop text k (length es) i m = Some (scan text k es, m).
Proof.
  induction es as [|e rest IH]; intros i m Hlen Htake; simpl.
  - reflexivity.
  - unfold bind, load_entry.
    destruct (entries m !! N.to_nat i) as [s|] eqn:Hi.
    + rewrite (drop_S _ _ _ Hi) in Htake. simpl in Htake.
      injection Htake as Hs Hrest. subst s.
      destruct (strcmp (text (key e)) (text k) =? 0)%Z; [reflexivity|].
      apply lookup_lt_Some in Hi.
      assert (Hw : wrap (i + 1) = i + 1) by (apply wrap_small; lia).
      rewrite Hw. apply IH; [exact Hlen|].
      replace (N.to_nat (i + 1)) with (S (N.to_nat i)) by lia. exact Hrest.
    + apply lookup_ge_None in Hi. rewrite drop_ge in Htake by exact Hi.
      discriminate.
Qed.

Lemma length_contents (m : Map) :
  wf m -> length (contents m) = N.to_nat (size m).
Proof.
  intros (_ & _ & Hsz & Hst).
  apply (f_equal length) in Hst. rewrite length_fmap in Hst.
  rewrite <- Hst. unfold stored. rewrite length_take. lia.
Qed.

Lemma get_scan (text : ptr -> string) (k : ptr) (m : Map) :
  wf m -> get text k m = Some (scan text k (contents m), m).
Proof.
  intros Hwf. unfold get, bind, load_size.
  pose proof (length_contents m Hwf) as Hn.
  destruct Hwf as (Hlen & _ & _ & Hst).
  rewrite <- Hn. apply get_loop_scan; [exact Hlen|].
  simpl. rewrite drop_0, Hn. exact Hst.
Qed.

(** ** put, step by step *)

Lemma put_unfold (k v : ptr) (m : Map) :
  put k v m =
  if decide (N.to_nat (size m) < length (entries (grown m)))%nat
  then Some (tt, mkMap (<[N.to_nat (size m) := Some (mkEntry k v)]>
                          (entries (grown m)))
                       (wrap (size m + 1)) (capacity (grown m)))
  else None.
Proof.
  unfold put, grown, bind, load_size, load_capacity, store_capacity,
    realloc_entries, store_size, store_entry, ret. simpl.
  destruct (size m =? capacity m); reflexivity.
Qed.

Lemma length_realloc (buf : list slot) (bytes : N) :
  length (realloc buf bytes) = slots_of bytes.
Proof.
  unfold realloc. rewrite length_app, length_take, length_replicate. lia.
Qed.

Lemma take_realloc (buf : list slot) (bytes : N) (n : nat) :
  (n <= slots_of bytes)%nat -> (n <= length buf)%nat ->
  take n (realloc buf bytes) = take n buf.
Proof.
  intros H1 H2. unfold realloc.
  rewrite take_app_le by (rewrite length_take; lia).
  rewrite take_take. f_equal. lia.
Qed.

Lemma size_grown (m : Map) : size (grown m) = size m.
Proof. unfold grown. destruct (size m =? capacity m); reflexivity. Qed.

Lemma capacity_grown (m : Map) :
  wf m ->
  capacity (grown m) =
  if size m =? capacity m then 2 * capacity m else capacity m.
Proof.
  intros (Hlen & Hcap & Hsz & _). unfold grown.
  destruct (N.eqb_spec (size m) (capacity m)) as [E|E]; [|reflexivity].
  simpl. rewrite wrap_small by lia. lia.
Qed.

Lemma length_grown (m : Map) :
  wf m ->
  N.of_nat (length (entries (grown m))) < 2 ^ 60 /\
  N.of_nat (length (entries (grown m))) <= capacity (grown m).
Proof.
  intros (Hlen & Hcap & _). unfold grown.
  destruct (size m =? capacity m); simpl; [|tauto].
  rewrite length_realloc.
  split; [apply slots_of_wrap_lt | apply slots_of_wrap_le].
Qed.

Lemma stored_grown (m : Map) :
  wf m ->
  (N.to_nat (size m) < length (entries (grown m)))%nat ->
  take (N.to_nat (size m)) (entries (grown m)) = stored m.
Proof.
  intros (_ & _ & Hsz & _). unfold grown, stored.
  destruct (size m =? capacity m); simpl; [|reflexivity].
  rewrite length_realloc. intros Hroom.
  apply take_realloc; lia.
Qed.

(** What a [put] that has a result does to a well-formed container. *)
Lemma put_spec (k v : ptr) (m m' : Map) :
  wf m -> put k v m = Some (tt, m') ->
  wf m' /\
  size m' = size m + 1 /\
  capacity m' = (if size m =? capacity m then 2 * capacity m else capacity m) /\
  contents m' = contents m ++ [mkEntry k v] /\
  stored m' = stored m ++ [Some (mkEntry k v)].
Proof.
  intros Hwf Hput. rewrite put_unfold in Hput.
  destruct (decide _) as [Hroom|]; [|discriminate].
  injection Hput as <-.
  pose proof (length_grown m Hwf) as [Hlen Hcap].
  pose proof (stored_grown m Hwf Hroom) as Hst.
  pose proof (capacity_grown m Hwf) as Hc.
  destruct Hwf as (_ & _ & _ & Hinit).
  assert (Hw : wrap (size m + 1) = size m + 1) by (apply wrap_small; lia).
  assert (Hst' : stored (mkMap (<[N.to_nat (size m) := Some (mkEntry k v)]>
                                  (entries (grown m)))
                               (wrap (size m + 1)) (capacity (grown m)))
                 = stored m ++ [Some (mkEntry k v)]).
  { unfold stored at 1. simpl. rewrite Hw.
    replace (N.to_nat (size m + 1)) with (S (N.to_nat (size m))) by lia.
    rewrite (take_S_r _ _ (Some (mkEntry k v)))
      by (apply list_lookup_insert_eq; exact Hroom).
    rewrite take_insert_ge by lia. now rewrite Hst. }
  assert (Hct : contents (mkMap (<[N.to_nat (size m) := Some (mkEntry k v)]>
                                  (entries (grown m)))
                               (wrap (size m + 1)) (capacity (grown m)))
                = contents m ++ [mkEntry k v]).
  { unfold contents at 1. rewrite Hst', omap_app. reflexivity. }
  repeat split; simpl; rewrite ?length_insert; try lia; try assumption.
  change (stored ?x = _) with (stored x = Some <$> contents x).
  rewrite Hst', Hct, fmap_app, <- Hinit. reflexivity.
Qed.

(** ** The constructor and sequences of put *)

Lemma wf_Map_new (c : N) : wf (Map_new c).
Proof.
  unfold wf, Map_new, malloc. simpl. rewrite length_replicate.
  repeat split.
  - apply slots_of_wrap_lt.
  - apply slots_of_wrap_le.
  - lia.
Qed.

Lemma contents_Map_new (c : N) : contents (Map_new c) = [].
Proof. reflexivity. Qed.

Lemma puts_spec (ops : list (ptr * ptr)) :
  forall m m' : Map,
    wf m -> puts ops m = Some (tt, m') ->
    wf m' /\
    size m' = size m + N.of_nat (length ops) /\
    capacity m <= capacity m' /\
    contents m' = contents m ++ entries_of ops.
Proof.
  induction ops as [|[k v] rest IH]; intros m m' Hwf Hrun; simpl in Hrun.
  - injection Hrun as <-. simpl. rewrite app_nil_r.
    repeat split; try apply Hwf; lia.
  - unfold bind in Hrun.
    destruct (put k v m) as [[[] m1]|] eqn:Hput; [|discriminate].
    destruct (put_spec k v m m1 Hwf Hput) as (Hwf1 & Hsz1 & Hcap1 & Hct1 & _).
    destruct (IH m1 m' Hwf1 Hrun) as (Hwf' & Hsz' & Hcap' & Hct').
    repeat split; try apply Hwf'.
    + rewrite Hsz', Hsz1. simpl length. lia.
    + destruct (size m =? capacity m); lia.
    + rewrite Hct', Hct1, <- app_assoc. reflexivity.
Qed.

Lemma put_total (k v : ptr) (m : Map) :
  wf m -> exact m -> size m < 2 ^ 59 ->
  exists m', put k v m = Some (tt, m') /\ exact m'.
Proof.
  intros (_ & _ & Hsz & _) (Hlen & Hpos & Hcap) Hbound.
  rewrite put_unfold. unfold grown.
  destruct (N.eqb_spec (size m) (capacity m)) as [E|E]; simpl.
  - assert (Hw : wrap (capacity m * 2) = capacity m * 2)
      by (apply wrap_small; lia).
    rewrite Hw, length_realloc, slots_of_wrap_small by lia.
    destruct (decide _) as [_|Hno]; [|lia].
    eexists. split; [reflexivity|].
    unfold exact. simpl.
    rewrite length_insert, length_realloc, slots_of_wrap_small by lia. lia.
  - destruct (decide _) as [_|Hno]; [|lia].
    eexists. split; [reflexivity|].
    unfold exact. simpl. rewrite length_insert. lia.
Qed.

Lemma puts_total (ops : list (ptr * ptr)) :
  forall m : Map,
    wf m -> exact m -> size m + N.of_nat (length ops) <= 2 ^ 59 ->
    exists m', puts ops m = Some (tt, m').
Proof.
  induction ops as [|[k v] rest IH]; intros m Hwf Hex Hbound; simpl.
  - eexists. reflexivity.
  - simpl length in Hbound.
    destruct (put_total k v m Hwf Hex) as (m1 & Hput & Hex1); [lia|].
    destruct (put_spec k v m m1 Hwf Hput) as (Hwf1 & Hsz1 & _).
    destruct (IH m1 Hwf1 Hex1) as (m' & Hrun); [lia|].
    exists m'. unfold bind. rewrite Hput. exact Hrun.
Qed.

Lemma exact_Map_new (c : N) : 1 <= c -> c < 2 ^ 60 -> exact (Map_new c).
Proof.
  intros H1 H2. unfold exact, Map_new, malloc. simpl.
  rewrite length_replicate, slots_of_wrap_small by exact H2. lia.
Qed.

(** Every run of [put]s that fits in memory has a result. *)
Lemma run_total (c : N) (ops : list (ptr * ptr)) :
  1 <= c -> c < 2 ^ 60 -> N.of_nat (length ops) <= 2 ^ 59 ->
  exists m, puts ops (Map_new c) = Some (tt, m).
Proof.
  intros H1 H2 H3.
  apply puts_total; [apply wf_Map_new | now apply exact_Map_new | simpl; lia].
Qed.

(** The bound of [run_total] on the capacity is the best one: for 2^60
    entries the byte count wraps to 0, the allocation has no slot, and the
    first [put] writes outside it. *)
Remark allocation_wraps (k v : ptr) : put k v (Map_new (2 ^ 60)) = None.
Proof. reflexivity. Qed.

(** The entries of a container are the [put]s made on it, in order. *)
Lemma run_contents (c : N) (ops : list (ptr * ptr)) (m : Map) :
  puts ops (Map_new c) = Some (tt, m) ->
  wf m /\ contents m = entries_of ops.
Proof.
  intros Hrun.
  destruct (puts_spec ops _ _ (wf_Map_new c) Hrun) as (Hwf & _ & _ & Hct).
  split; [exact Hwf | exact Hct].
Qed.

(** ** Runs from construction *)

Lemma run_Some (c : N) (ops : list (ptr * ptr)) (m : Map) :
  run c ops = Some m <-> puts ops (Map_new c) = Some (tt, m).
Proof.
  unfold run. destruct (puts ops (Map_new c)) as [[[] m0]|].
  - split; intros H; injection H as ->; reflexivity.
  - split; discriminate.
Qed.

Lemma run_fits (c : N) (ops : list (ptr * ptr)) :
  1 <= c -> fits c ops -> exists m, run c ops = Some m.
Proof.
  intros H1 [H2 H3]. destruct (run_total c ops H1 H2 H3) as [m Hm].
  exists m. now apply run_Some.
Qed.

Lemma run_wf (c : N) (ops : list (ptr * ptr)) (m : Map) :
  run c ops = Some m -> wf m /\ contents m = entries_of ops.
Proof. intros H. apply run_Some in H. now apply run_contents in H. Qed.

Lemma run_get (text : ptr -> string) (c : N) (ops : list (ptr * ptr))
    (m : Map) (k : ptr) :
  run c ops = Some m ->
  get text k m = Some (scan text k (entries_of ops), m).
Proof.
  intros H. destruct (run_wf c ops m H) as [Hwf Hct].
  rewrite <- Hct. now apply get_scan.
Qed.

(** ** Properties of the scan *)

Section Scan.

Variable text : ptr -> string.

Lemma scan_hit (k : ptr) (e : Entry) (rest : list Entry) :
  same_key text (key e) k -> scan text k (e :: rest) = value e.
Proof.
  intros H. simpl. apply strcmp_eq_content in H. now rewrite H.
Qed.

Lemma scan_skip (k : ptr) (e : Entry) (rest : list Entry) :
  ~ same_key text (key e) k -> scan text k (e :: rest) = scan text k rest.
Proof.
  intros H. simpl.
  destruct (Z.eqb_spec (strcmp (text (key e)) (text k)) 0) as [E|E].
  - now apply strcmp_eq_content in E.
  - reflexivity.
Qed.

Lemma scan_app_miss (k : ptr) (pre rest : list Entry) :
  Forall (fun e => ~ same_key text (key e) k) pre ->
  scan text k (pre ++ rest) = scan text k rest.
Proof.
  induction 1 as [|e pre He _ IH]; [reflexivity|].
  rewrite <- app_comm_cons, scan_skip by exact He. exact IH.
Qed.

Lemma scan_miss (k : ptr) (es : list Entry) :
  Forall (fun e => ~ same_key text (key e) k) es ->
  scan text k es = nullptr.
Proof.
  intros H. rewrite <- (app_nil_r es). now rewrite scan_app_miss.
Qed.

Lemma scan_same_key (k k' : ptr) (es : list Entry) :
  same_key text k k' -> scan text k es = scan text k' es.
Proof.
  intros H. induction es as [|e es IH]; [reflexivity|].
  destruct (String.string_dec (content (text (key e))) (content (text k)))
    as [E|E].
  - rewrite !scan_hit; [reflexivity | | exact E].
    unfold same_key in *. congruence.
  - rewrite !scan_skip; [exact IH | | exact E].
    unfold same_key in *. congruence.
Qed.

End Scan.

(** ** The claims of the specification *)

Lemma Forall_entries_of (P : ptr -> Prop) (ops : list (ptr * ptr)) :
  Forall (fun kv => P (fst kv)) ops ->
  Forall (fun e => P (key e)) (entries_of ops).
Proof.
  unfold entries_of. intros H. apply Forall_map.
  eapply Forall_impl; [exact H|]. intros [k v] Hk. exact Hk.
Qed.

(** C1 (first-match-wins). After any [put]s whose keys differ in content from
    k, then [put (k, v1)], then any further [put]s, then [put (k, v2)] with a
    key of the same content, [get] of a key with that content returns v1 and
    leaves the container as it is; and the run has a result whenever it fits
    in memory. *)
Theorem first_match_wins (text : ptr -> string) (c : N)
    (before between : list (ptr * ptr)) (k1 v1 k2 v2 q : ptr) :
  same_key text k1 k2 ->
  same_key text q k1 ->
  Forall (fun kv => ~ same_key text (fst kv) k1) before ->
  (1 <= c -> fits c (before ++ (k1, v1) :: between ++ [(k2, v2)]) ->
   exists m, run c (before ++ (k1, v1) :: between ++ [(k2, v2)]) = Some m) /\
  (forall m,
     run c (before ++ (k1, v1) :: between ++ [(k2, v2)]) = Some m ->
     get text q m = Some (v1, m)).
Proof.
  intros _ Hq Hbefore. split; [apply run_fits|].
  intros m Hrun. rewrite (run_get text c _ m q Hrun). f_equal. f_equal.
  rewrite (scan_same_key text q k1) by exact Hq.
  unfold entries_of. rewrite map_app. simpl.
  rewrite scan_app_miss.
  - apply (scan_hit text k1 (mkEntry k1 v1)). reflexivity.
  - apply (Forall_entries_of (fun k => ~ same_key text k k1)). exact Hbefore.
Qed.

(** Scenario B of the specification, with the second "x" at another address:
    capacity 4, put ("x","1"), put ("x","2"); get "x" is "1". *)
Lemma first_match_wins_witness :
  exists m, run 4 [(7, 2); (8, 4)] = Some m /\ get demo_text 8 m = Some (2, m).
Proof.
  destruct (first_match_wins demo_text 4 [] [] 7 2 8 4 8) as [Htot Hget].
  - reflexivity.
  - reflexivity.
  - constructor.
  - destruct Htot as [m Hm].
    + lia.
    + unfold fits. simpl. lia.
    + exists m. split; [exact Hm | apply Hget; exact Hm].
Defined.

Lemma scan_distinct (text : ptr -> string) (ops : list (ptr * ptr)) :
  NoDup (key_contents text ops) ->
  forall k v, In (k, v) ops -> scan text k (entries_of ops) = v.
Proof.
  induction ops as [|[k0 v0] rest IH]; intros Hnd k v Hin; [destruct Hin|].
  unfold key_contents in Hnd. simpl in Hnd.
  inversion Hnd as [|x l Hnotin Hnd']. subst x l.
  destruct Hin as [Heq|Hin].
  - injection Heq as -> ->.
    apply (scan_hit text k (mkEntry k v)). reflexivity.
  - change (entries_of ((k0, v0) :: rest))
      with (mkEntry k0 v0 :: entries_of rest).
    rewrite scan_skip; [now apply IH|].
    simpl. intros Hsame. apply Hnotin. unfold same_key in Hsame.
    rewrite Hsame. apply list_elem_of_In.
    apply (in_map (fun kv => content (text (fst kv))) rest (k, v) Hin).
Qed.

(** C2 (round-trip). On a container constructed with capacity at least 1,
    after a sequence of [put]s whose keys have pairwise distinct content,
    [get] of every key of the sequence returns the value put with it; and the
    run has a result whenever it fits in memory. *)
Theorem round_trip (text : ptr -> string) (c : N) (ops : list (ptr * ptr)) :
  1 <= c ->
  NoDup (key_contents text ops) ->
  (fits c ops -> exists m, run c ops = Some m) /\
  (forall m, run c ops = Some m ->
     forall k v, In (k, v) ops -> get text k m = Some (v, m)).
Proof.
  intros Hc Hnd. split; [now apply run_fits|].
  intros m Hrun k v Hin. rewrite (run_get text c ops m k Hrun).
  now rewrite (scan_distinct text ops Hnd k v Hin).
Qed.

(** Scenario A of the specification: capacity 2, put ("a","1"), ("b","2"),
    ("c","3"); get "b" is "2". *)
Lemma round_trip_witness :
  exists m, run 2 [(1, 2); (3, 4); (5, 6)] = Some m /\
            get demo_text 3 m = Some (4, m).
Proof.
  destruct (round_trip demo_text 2 [(1, 2); (3, 4); (5, 6)]) as [Htot Hget].
  - lia.
  - unfold key_contents. simpl.
    repeat (constructor;
            [rewrite list_elem_of_In; simpl; intuition discriminate|]).
    constructor.
  - destruct Htot as [m Hm]; [unfold fits; simpl; lia|].
    exists m. split; [exact Hm|]. apply (Hget m Hm). simpl. tauto.
Defined.

(** ** Slots after a put *)

Lemma length_stored (m : Map) :
  wf m -> length (stored m) = N.to_nat (size m).
Proof.
  intros (_ & _ & Hsz & _). unfold stored. rewrite length_take. lia.
Qed.

Lemma lookup_stored (m : Map) (i : nat) :
  (i < N.to_nat (size m))%nat -> stored m !! i = entries m !! i.
Proof. intros H. unfold stored. now apply lookup_take_lt. Qed.

Lemma put_slots (k v : ptr) (m m' : Map) :
  wf m -> put k v m = Some (tt, m') ->
  (forall i : nat, (i < N.to_nat (size m))%nat ->
     entries m' !! i = entries m !! i) /\
  entries m' !! N.to_nat (size m) = Some (Some (mkEntry k v)).
Proof.
  intros Hwf Hput.
  destruct (put_spec k v m m' Hwf Hput) as (_ & Hsz & _ & _ & Hst).
  pose proof (length_stored m Hwf) as Hlen.
  split.
  - intros i Hi.
    rewrite <- (lookup_stored m' i) by lia.
    rewrite Hst, lookup_app_l by lia. now apply lookup_stored.
  - rewrite <- (lookup_stored m') by lia.
    rewrite Hst, <- Hlen. apply list_lookup_middle. reflexivity.
Qed.

Lemma puts_app (a b : list (ptr * ptr)) (m : Map) :
  puts (a ++ b) m =
  match puts a m with
  | Some (_, m1) => puts b m1
  | None => None
  end.
Proof.
  revert m. induction a as [|[k v] a IH]; intros m; simpl; [reflexivity|].
  unfold bind. destruct (put k v m) as [[[] m1]|]; [apply IH | reflexivity].
Qed.

(** While there is room, a run of [put]s leaves the capacity alone. *)
Lemma puts_room (ops : list (ptr * ptr)) :
  forall m m' : Map,
    wf m -> size m + N.of_nat (length ops) <= capacity m ->
    puts ops m = Some (tt, m') -> capacity m' = capacity m.
Proof.
  induction ops as [|[k v] rest IH]; intros m m' Hwf Hroom Hrun;
    simpl in Hrun.
  - now injection Hrun as <-.
  - unfold bind in Hrun. simpl length in Hroom.
    destruct (put k v m) as [[[] m1]|] eqn:Hput; [|discriminate].
    destruct (put_spec k v m m1 Hwf Hput) as (Hwf1 & Hsz1 & Hcap1 & _).
    destruct (N.eqb_spec (size m) (capacity m)) as [E|E]; [lia|].
    rewrite (IH m1 m' Hwf1) by (assumption || lia). exact Hcap1.
Qed.

(** [capacity + 1] [put]s on a fresh container grow it exactly once. *)
Lemma run_grows (c : N) (ops : list (ptr * ptr)) (m : Map) :
  1 <= c -> N.of_nat (length ops) = c + 1 ->
  run c ops = Some m -> capacity m = 2 * c.
Proof.
  intros Hc Hlen Hrun. apply run_Some in Hrun.
  destruct (exists_last (l := ops)) as (firsts & [k v] & ->).
  { intros ->. simpl in Hlen. lia. }
  rewrite length_app in Hlen. simpl in Hlen.
  rewrite puts_app in Hrun.
  destruct (puts firsts (Map_new c)) as [[[] m1]|] eqn:H1; [|discriminate].
  destruct (puts_spec firsts _ _ (wf_Map_new c) H1) as (Hwf1 & Hsz1 & _).
  simpl in Hsz1.
  assert (Hcap1 : capacity m1 = c).
  { apply (puts_room firsts (Map_new c) m1 (wf_Map_new c)); [simpl; lia|].
    exact H1. }
  simpl in Hrun. unfold bind in Hrun.
  destruct (put k v m1) as [[[] m2]|] eqn:H2; [|discriminate].
  injection Hrun as <-.
  destruct (put_spec k v m1 m2 Hwf1 H2) as (_ & _ & Hcap2 & _).
  rewrite Hcap2, Hcap1.
  destruct (N.eqb_spec (size m1) c) as [E|E]; lia.
Qed.

(** The i-th [put] of a run is stored in slot i. *)
Lemma run_slots (c : N) (ops : list (ptr * ptr)) (m : Map) :
  run c ops = Some m ->
  forall (i : nat) (k v : ptr),
    ops !! i = Some (k, v) -> entries m !! i = Some (Some (mkEntry k v)).
Proof.
  intros Hrun i k v Hi.
  destruct (run_wf c ops m Hrun) as [Hwf Hct].
  pose proof (length_contents m Hwf) as Hlen.
  pose proof Hwf as (_ & _ & _ & Hst).
  assert (Hlt : (i < N.to_nat (size m))%nat).
  { rewrite <- Hlen, Hct. unfold entries_of. rewrite length_map.
    now apply lookup_lt_Some in Hi. }
  rewrite <- (lookup_stored m i Hlt), Hst, Hct.
  unfold entries_of. rewrite list_lookup_fmap.
  change (map ?f ?l) with (f <$> l). rewrite list_lookup_fmap, Hi.
  reflexivity.
Qed.

(** C3 (insert semantics). On a well-formed container (so size <= capacity),
    a [put] doubles the capacity exactly when size = capacity, leaves every
    slot below size as it was, writes the new entry in slot size and adds one
    to size; such a [put] has a result while the doubled allocation fits in
    memory. In particular capacity + 1 [put]s on a fresh container of
    capacity at least 1 double the capacity, every entry is in the slot of
    its [put], and with distinct keys [get] returns every value. *)
Theorem insert_semantics (text : ptr -> string) :
  (forall (k v : ptr) (m m' : Map),
     wf m -> put k v m = Some (tt, m') ->
     capacity m' =
       (if size m =? capacity m then 2 * capacity m else capacity m) /\
     (forall i : nat, (i < N.to_nat (size m))%nat ->
        entries m' !! i = entries m !! i) /\
     entries m' !! N.to_nat (size m) = Some (Some (mkEntry k v)) /\
     size m' = size m + 1) /\
  (forall (k v : ptr) (m : Map),
     wf m -> exact m -> size m < 2 ^ 59 ->
     exists m', put k v m = Some (tt, m')) /\
  (forall (c : N) (ops : list (ptr * ptr)),
     1 <= c -> N.of_nat (length ops) = c + 1 ->
     (fits c ops -> exists m, run c ops = Some m) /\
     (forall m, run c ops = Some m ->
        c < capacity m /\ capacity m = 2 * c /\
        (forall (i : nat) (k v : ptr), ops !! i = Some (k, v) ->
           entries m !! i = Some (Some (mkEntry k v))) /\
        (NoDup (key_contents text ops) ->
         forall k v, In (k, v) ops -> get text k m = Some (v, m)))).
Proof.
  split; [|split].
  - intros k v m m' Hwf Hput.
    destruct (put_spec k v m m' Hwf Hput) as (_ & Hsz & Hcap & _).
    destruct (put_slots k v m m' Hwf Hput) as [Hold Hnew].
    repeat split; assumption.
  - intros k v m Hwf Hex Hb.
    destruct (put_total k v m Hwf Hex Hb) as (m' & Hput & _).
    now exists m'.
  - intros c ops Hc Hlen. split; [now apply run_fits|].
    intros m Hrun. pose proof (run_grows c ops m Hc Hlen Hrun) as Hcap.
    split; [lia|]. split; [exact Hcap|]. split.
    + now apply (run_slots c).
    + intros Hnd k v Hin. rewrite (run_get text c ops m k Hrun).
      now rewrite (scan_distinct text ops Hnd k v Hin).
Qed.

(** Scenario A: capacity 2 and three [put]s force the growth from 2 to 4. *)
Lemma insert_semantics_witness :
  exists m, run 2 [(1, 2); (3, 4); (5, 6)] = Some m /\
            capacity m = 4 /\
            entries m !! 2%nat = Some (Some (mkEntry 5 6)).
Proof.
  destruct (insert_semantics demo_text) as (_ & _ & Hrun).
  destruct (Hrun 2 [(1, 2); (3, 4); (5, 6)]) as [Htot Hm].
  - lia.
  - reflexivity.
  - destruct Htot as [m Hr]; [unfold fits; simpl; lia|].
    destruct (Hm m Hr) as (_ & Hcap & Hslots & _).
    exists m. split; [exact Hr|]. split; [exact Hcap|].
    apply Hslots. reflexivity.
Defined.

(** C4, as the code has it. The constructor accepts 0: it returns a
    container with size 0, capacity 0 and an allocation of no slot. *)
Lemma zero_capacity_accepted :
  exists m, Map_new 0 = m /\ size m = 0 /\ capacity m = 0 /\
            entries m = [] /\ capacity (grown m) = capacity m.
Proof. exists (Map_new 0). repeat split. Qed.

(** C4 (amended). The constructor rejects no initial capacity. With 0 it
    returns the container of size 0 and capacity 0 without a slot; the growth
    step of [put] leaves that capacity at 0, and every [put] on it, hence
    every non-empty run, writes outside the allocation and has no result. *)
Theorem zero_capacity_policy :
  Map_new 0 = mkMap [] 0 0 /\
  capacity (grown (Map_new 0)) = 0 /\
  (forall k v : ptr, put k v (Map_new 0) = None) /\
  (forall ops : list (ptr * ptr), ops <> [] -> run 0 ops = None).
Proof.
  split; [reflexivity|]. split; [reflexivity|]. split.
  - intros k v. reflexivity.
  - intros [|[k v] rest] Hne; [congruence|]. reflexivity.
Qed.

(** C5 (lookup miss). On a fresh container, and on every well-formed
    container none of whose entries has a key with the content of k, [get k]
    returns the null pointer and leaves the container as it is. *)
Theorem lookup_miss (text : ptr -> string) (k : ptr) :
  (forall c : N, get text k (Map_new c) = Some (nullptr, Map_new c)) /\
  (forall m : Map,
     wf m ->
     Forall (fun e => ~ same_key text (key e) k) (contents m) ->
     get text k m = Some (nullptr, m)).
Proof.
  split.
  - intros c. rewrite get_scan by apply wf_Map_new. reflexivity.
  - intros m Hwf Hmiss. rewrite get_scan by exact Hwf.
    now rewrite scan_miss.
Qed.

(** Scenario A: after ("a","1"), ("b","2"), ("c","3"), get "z" finds
    nothing. *)
Lemma lookup_miss_witness :
  exists m, run 2 [(1, 2); (3, 4); (5, 6)] = Some m /\
            get demo_text 9 m = Some (nullptr, m).
Proof.
  eexists. split; [vm_compute; reflexivity|].
  apply lookup_miss.
  - apply (run_wf 2 [(1, 2); (3, 4); (5, 6)]). vm_compute. reflexivity.
  - vm_compute. repeat (constructor; [discriminate|]). constructor.
Defined.

(** A run that has a result has one on every prefix. *)
Lemma run_prefix (c : N) (ops : list (ptr * ptr)) (m : Map) (n : nat) :
  run c ops = Some m -> exists m', run c (take n ops) = Some m'.
Proof.
  intros Hrun. apply run_Some in Hrun.
  rewrite <- (take_drop n ops), puts_app in Hrun.
  destruct (puts (take n ops) (Map_new c)) as [[[] m1]|] eqn:H1;
    [|discriminate].
  exists m1. now apply run_Some.
Qed.

Lemma run_size (c : N) (ops : list (ptr * ptr)) (m : Map) :
  run c ops = Some m ->
  size m = N.of_nat (length ops) /\ size m <= capacity m.
Proof.
  intros Hrun. apply run_Some in Hrun.
  destruct (puts_spec ops _ _ (wf_Map_new c) Hrun)
    as ((_ & Hcap & Hsz & _) & Hsize & _).
  simpl in Hsize. split; lia.
Qed.

(** C6 (size/capacity invariant). A container constructed with capacity at
    least 1 has size 0 <= capacity; after any sequence of [put]s its size is
    the number of [put]s made and is at most its capacity, and the same holds
    after every prefix of the sequence; the run has a result whenever it fits
    in memory. *)
Theorem size_capacity_invariant (c : N) (ops : list (ptr * ptr)) :
  1 <= c ->
  (size (Map_new c) = 0 /\ size (Map_new c) <= capacity (Map_new c)) /\
  (fits c ops -> exists m, run c ops = Some m) /\
  (forall m, run c ops = Some m ->
     size m = N.of_nat (length ops) /\ size m <= capacity m /\
     forall n : nat, (n <= length ops)%nat ->
       exists m', run c (take n ops) = Some m' /\
                  size m' = N.of_nat n /\ size m' <= capacity m').
Proof.
  intros Hc. split; [simpl; lia|]. split; [now apply run_fits|].
  intros m Hrun. destruct (run_size c ops m Hrun) as [Hs Hle].
  split; [exact Hs|]. split; [exact Hle|].
  intros n Hn. destruct (run_prefix c ops m n Hrun) as [m' Hrun'].
  exists m'. split; [exact Hrun'|].
  destruct (run_size c _ m' Hrun') as [Hs' Hle'].
  rewrite length_take in Hs'. split; [lia | exact Hle'].
Qed.

(** Scenario A: three [put]s from capacity 2 give size 3 <= capacity. *)
Lemma size_capacity_invariant_witness :
  exists m, run 2 [(1, 2); (3, 4); (5, 6)] = Some m /\
            size m = 3 /\ size m <= capacity m.
Proof.
  destruct (size_capacity_invariant 2 [(1, 2); (3, 4); (5, 6)])
    as (_ & Htot & Hinv).
  - lia.
  - destruct Htot as [m Hm]; [unfold fits; simpl; lia|].
    destruct (Hinv m Hm) as (Hs & Hle & _).
    exists m. split; [exact Hm|]. split; [exact Hs | exact Hle].
Defined.

(** ** Lookup as the specification words it *)

Lemma key_matches_spec (text : ptr -> string) (k : ptr) (e : Entry) :
  key_matches text k e = true <-> same_key text (key e) k.
Proof. unfold key_matches, same_key. apply String.eqb_eq. Qed.

Lemma scan_lookup_by_content (text : ptr -> string) (k : ptr)
    (es : list Entry) :
  scan text k es = lookup_by_content text k es.
Proof.
  unfold lookup_by_content. induction es as [|e es IH]; [reflexivity|].
  simpl List.find. destruct (key_matches text k e) eqn:E.
  - apply scan_hit. now apply key_matches_spec.
  - rewrite scan_skip; [exact IH|].
    intros H. apply key_matches_spec in H. congruence.
Qed.

(** C7 (content equality). On a well-formed container [get k] returns the
    value of the first entry, in insertion order, whose key has the content
    of k, and the null pointer when there is none; a query through another
    address with the same content gives the same result; and a non-null
    result is the value of a stored entry whose key has the content of k. *)
Theorem get_by_content (text : ptr -> string) (k : ptr) (m : Map) :
  wf m ->
  get text k m = Some (lookup_by_content text k (contents m), m) /\
  (forall k' : ptr, same_key text k k' -> get text k' m = get text k m) /\
  (forall r : ptr, get text k m = Some (r, m) -> r <> nullptr ->
     exists e, In e (contents m) /\ same_key text (key e) k /\ value e = r).
Proof.
  intros Hwf. rewrite !get_scan by exact Hwf. split; [|split].
  - now rewrite scan_lookup_by_content.
  - intros k' Hk. rewrite get_scan by exact Hwf.
    now rewrite (scan_same_key text k k').
  - intros r Hr Hnn. injection Hr as Hr.
    rewrite scan_lookup_by_content in Hr. unfold lookup_by_content in Hr.
    destruct (List.find (key_matches text k) (contents m)) as [e|] eqn:Hf.
    + apply find_some in Hf. destruct Hf as [Hin Hmatch].
      exists e. split; [exact Hin|]. split; [|exact Hr].
      now apply key_matches_spec.
    + congruence.
Qed.

(** The key "x" stored through address 7 is found through address 8. *)
Lemma get_by_content_witness :
  exists m, run 4 [(7, 2); (8, 4)] = Some m /\
            get demo_text 8 m = Some (2, m) /\
            get demo_text 7 m = get demo_text 8 m.
Proof.
  eexists. split; [vm_compute; reflexivity|].
  match goal with |- get _ _ ?m = _ /\ _ =>
    assert (Hwf : wf m)
      by (apply (run_wf 4 [(7, 2); (8, 4)]); vm_compute; reflexivity);
    destruct (get_by_content demo_text 8 m Hwf) as (Hget & Hsame & _)
  end.
  split.
  - rewrite Hget. reflexivity.
  - apply Hsame. reflexivity.
Defined.

(** ** get reads only *)

Lemma get_loop_state (text : ptr -> string) (k : ptr) (n : nat) :
  forall (i : N) (m m' : Map) (r : ptr),
    get_loop text k n i m = Some (r, m') -> m' = m.
Proof.
  induction n as [|n IH]; intros i m m' r H; simpl in H.
  - unfold ret in H. congruence.
  - unfold bind, load_entry in H.
    destruct (entries m !! N.to_nat i) as [[e|]|]; try discriminate.
    destruct (strcmp (text (key e)) (text k) =? 0)%Z.
    + unfold ret in H. congruence.
    + now apply IH in H.
Qed.

Lemma get_state (text : ptr -> string) (k : ptr) (m m' : Map) (r : ptr) :
  get text k m = Some (r, m') -> m' = m.
Proof.
  unfold get, bind, load_size. apply get_loop_state.
Qed.

(** C8 (lookup is effect-free). In every container state, a [get] that
    returns leaves the whole state (entries, size and capacity) as it was,
    and the same [get] made again returns the same result; on a well-formed
    container [get] always returns. *)
Theorem get_effect_free (text : ptr -> string) (k : ptr) (m : Map) :
  (forall (r : ptr) (m' : Map),
     get text k m = Some (r, m') ->
     m' = m /\
     entries m' = entries m /\ size m' = size m /\
     capacity m' = capacity m /\
     get text k m' = Some (r, m')) /\
  (wf m -> exists r, get text k m = Some (r, m)).
Proof.
  split.
  - intros r m' H. pose proof (get_state text k m m' r H) as ->.
    repeat split; try reflexivity. exact H.
  - intros Hwf. eexists. now apply get_scan.
Qed.

(** In Scenario A, get "b" returns "2" and the container is unchanged. *)
Lemma get_effect_free_witness :
  exists m r, run 2 [(1, 2); (3, 4); (5, 6)] = Some m /\
              get demo_text 3 m = Some (r, m).
Proof.
  eexists. 
  match goal with |- exists r, _ = Some ?m /\ _ =>
    assert (Hwf : wf m)
  end.
  - apply (run_wf 2 [(1, 2); (3, 4); (5, 6)]). vm_compute. reflexivity.
  - match type of Hwf with wf ?m =>
      destruct (proj2 (get_effect_free demo_text 3 m) Hwf) as [r Hr]
    end.
    exists r. split; [vm_compute; reflexivity | exact Hr].
Defined.

(** C9 (capacity monotonicity and growth progress). On a well-formed
    container a [put] never lowers the capacity, and neither does a sequence
    of [put]s; [get] leaves it alone. When a [put] on a container of
    capacity at least 1 finds size = capacity, the new capacity is twice the
    old one, strictly greater, and the new size fits in it; and such a [put]
    has a result while the doubled allocation fits in memory. *)
Theorem capacity_monotone (text : ptr -> string) :
  (forall (k v : ptr) (m m' : Map),
     wf m -> put k v m = Some (tt, m') ->
     capacity m <= capacity m' /\
     (size m = capacity m -> 1 <= capacity m ->
      capacity m' = 2 * capacity m /\ capacity m < capacity m' /\
      size m' <= capacity m')) /\
  (forall (ops : list (ptr * ptr)) (m m' : Map),
     wf m -> puts ops m = Some (tt, m') -> capacity m <= capacity m') /\
  (forall (k r : ptr) (m m' : Map),
     get text k m = Some (r, m') -> capacity m' = capacity m) /\
  (forall (k v : ptr) (m : Map),
     wf m -> exact m -> size m = capacity m -> size m < 2 ^ 59 ->
     exists m', put k v m = Some (tt, m') /\
                capacity m' = 2 * capacity m /\ size m < capacity m').
Proof.
  split; [|split; [|split]].
  - intros k v m m' Hwf Hput.
    destruct (put_spec k v m m' Hwf Hput) as (Hwf' & Hsz & Hcap & _).
    destruct Hwf' as (_ & Hc' & Hs' & _).
    split.
    + rewrite Hcap. destruct (size m =? capacity m); lia.
    + intros Hfull Hpos. rewrite <- Hfull, N.eqb_refl in Hcap. lia.
  - intros ops m m' Hwf Hrun.
    now destruct (puts_spec ops m m' Hwf Hrun) as (_ & _ & Hcap & _).
  - intros k r m m' Hget. now rewrite (get_state text k m m' r Hget).
  - intros k v m Hwf Hex Hfull Hb.
    destruct (put_total k v m Hwf Hex Hb) as (m' & Hput & _).
    destruct (put_spec k v m m' Hwf Hput) as (_ & _ & Hcap & _).
    rewrite Hfull, N.eqb_refl in Hcap.
    destruct Hex as (_ & Hpos & _).
    exists m'. split; [exact Hput|]. lia.
Qed.

(** Scenario C continued: the container of capacity 1 holding one entry is
    full; the next [put] doubles its capacity to 2. *)
Lemma capacity_monotone_witness :
  exists m m', run 1 [(1, 2)] = Some m /\ put 3 4 m = Some (tt, m') /\
               capacity m' = 2 * capacity m /\ size m < capacity m'.
Proof.
  eexists.
  match goal with |- exists m', _ = Some ?m /\ _ =>
    assert (Hwf : wf m)
  end.
  - apply (run_wf 1 [(1, 2)]). vm_compute. reflexivity.
  - match type of Hwf with wf ?m =>
      destruct (proj2 (proj2 (proj2 (capacity_monotone demo_text))) 3 4 m Hwf)
        as (m' & Hput & Hcap & Hroom)
    end.
    + unfold exact. simpl. lia.
    + reflexivity.
    + simpl. lia.
    + exists m'. split; [vm_compute; reflexivity|].
      split; [exact Hput|]. split; [exact Hcap | exact Hroom].
Defined.

(** C10 (the initial capacity is not observable). Two containers constructed
    with capacities at least 1 and given the same sequence of [put]s return
    the same result to every [get]; both runs have a result whenever they fit
    in memory. *)
Theorem capacity_independent (text : ptr -> string) (c1 c2 : N)
    (ops : list (ptr * ptr)) :
  1 <= c1 -> 1 <= c2 ->
  (fits c1 ops -> fits c2 ops ->
   exists m1 m2, run c1 ops = Some m1 /\ run c2 ops = Some m2) /\
  (forall m1 m2, run c1 ops = Some m1 -> run c2 ops = Some m2 ->
     forall k : ptr, exists r : ptr,
       get text k m1 = Some (r, m1) /\ get text k m2 = Some (r, m2)).
Proof.
  intros H1 H2. split.
  - intros F1 F2.
    destruct (run_fits c1 ops H1 F1) as [m1 Hm1].
    destruct (run_fits c2 ops H2 F2) as [m2 Hm2].
    now exists m1, m2.
  - intros m1 m2 Hm1 Hm2 k. exists (scan text k (entries_of ops)).
    split; [now apply (run_get text c1 ops) | now apply (run_get text c2 ops)].
Qed.

(** Scenario A from capacity 2 and from capacity 1 answers get "b" alike. *)
Lemma capacity_independent_witness :
  exists m1 m2 r,
    run 2 [(1, 2); (3, 4); (5, 6)] = Some m1 /\
    run 1 [(1, 2); (3, 4); (5, 6)] = Some m2 /\
    get demo_text 3 m1 = Some (r, m1) /\ get demo_text 3 m2 = Some (r, m2).
Proof.
  destruct (capacity_independent demo_text 2 1 [(1, 2); (3, 4); (5, 6)])
    as [Htot Hobs]; [lia | lia |].
  destruct Htot as (m1 & m2 & Hm1 & Hm2);
    [unfold fits; simpl; lia | unfold fits; simpl; lia |].
  destruct (Hobs m1 m2 Hm1 Hm2 3) as (r & Hr1 & Hr2).
  exists m1, m2, r. repeat split; assumption.
Defined.

(** ** Further properties of put and get *)

Lemma scan_app_hit (text : ptr -> string) (q : ptr) (pre post : list Entry) :
  Exists (fun e => same_key text (key e) q) pre ->
  scan text q (pre ++ post) = scan text q pre.
Proof.
  induction pre as [|e pre IH]; intros H; [now apply Exists_nil in H|].
  rewrite <- app_comm_cons.
  destruct (String.string_dec (content (text (key e))) (content (text q)))
    as [E|E].
  - now rewrite !scan_hit.
  - rewrite !scan_skip by exact E. apply IH.
    apply Exists_cons in H. destruct H as [H|H]; [contradiction | exact H].
Qed.

Lemma match_cases (text : ptr -> string) (q : ptr) (es : list Entry) :
  Exists (fun e => same_key text (key e) q) es \/
  Forall (fun e => ~ same_key text (key e) q) es.
Proof.
  induction es as [|e es [IH|IH]].
  - right. constructor.
  - left. now apply Exists_cons_tl.
  - destruct (String.string_dec (content (text (key e))) (content (text q)))
      as [E|E].
    + left. now apply Exists_cons_hd.
    + right. now constructor.
Qed.

Lemma get_put_scan (text : ptr -> string) (k v q : ptr) (m m' : Map) :
  wf m -> put k v m = Some (tt, m') ->
  get text q m' = Some (scan text q (contents m ++ [mkEntry k v]), m').
Proof.
  intros Hwf Hput.
  destruct (put_spec k v m m' Hwf Hput) as (Hwf' & _ & _ & Hct & _).
  rewrite get_scan by exact Hwf'. now rewrite Hct.
Qed.

(** X1 (get after put). On a well-formed container, after [put k v]: a query
    that already had a matching entry gets the result it got before; a query
    without one gets v when k has its content, and the null pointer
    otherwise. *)
Theorem get_after_put (text : ptr -> string) (k v q : ptr) (m m' : Map) :
  wf m -> put k v m = Some (tt, m') ->
  (Exists (fun e => same_key text (key e) q) (contents m) ->
   exists r, get text q m = Some (r, m) /\ get text q m' = Some (r, m')) /\
  (Forall (fun e => ~ same_key text (key e) q) (contents m) ->
   same_key text k q -> get text q m' = Some (v, m')) /\
  (Forall (fun e => ~ same_key text (key e) q) (contents m) ->
   ~ same_key text k q -> get text q m' = Some (nullptr, m')).
Proof.
  intros Hwf Hput. rewrite (get_put_scan text k v q m m' Hwf Hput).
  split; [|split].
  - intros Hhit. exists (scan text q (contents m)).
    split; [now apply get_scan|]. now rewrite scan_app_hit.
  - intros Hmiss Hk. rewrite scan_app_miss by exact Hmiss.
    now rewrite (scan_hit text q (mkEntry k v)).
  - intros Hmiss Hk. rewrite scan_app_miss by exact Hmiss.
    now rewrite (scan_skip text q (mkEntry k v)).
Qed.

(** On the container holding ("a","1"), put ("b","2") leaves get "a" at "1"
    and makes get "b" return "2". *)
Lemma get_after_put_witness :
  exists m m', run 2 [(1, 2)] = Some m /\ put 3 4 m = Some (tt, m') /\
               get demo_text 1 m' = Some (2, m') /\
               get demo_text 3 m' = Some (4, m').
Proof.
  eexists. eexists. split; [vm_compute; reflexivity|].
  split; [vm_compute; reflexivity|].
  match goal with |- get _ _ ?m' = _ /\ _ =>
    pose (m0 := mkMap [Some (mkEntry 1 2); None] 1 2);
    assert (Hwf : wf m0)
      by (apply (run_wf 2 [(1, 2)]); vm_compute; reflexivity);
    assert (Hput : put 3 4 m0 = Some (tt, m')) by (vm_compute; reflexivity)
  end.
  split.
  - destruct (get_after_put demo_text 3 4 1 m0 _ Hwf Hput)
      as (Hold & _ & _).
    destruct Hold as (r & Hr & Hr').
    + vm_compute. apply Exists_cons_hd. reflexivity.
    + rewrite Hr'. f_equal. f_equal.
      vm_compute in Hr. congruence.
  - destruct (get_after_put demo_text 3 4 3 m0 _ Hwf Hput)
      as (_ & Hnew & _).
    apply Hnew.
    + vm_compute. constructor; [discriminate | constructor].
    + reflexivity.
Defined.

(** X2 (a second put of a present key is not observable). On a well-formed
    container that already holds an entry with the content of k, [put k v]
    takes one more slot but every [get], of any key, returns what it returned
    before. *)
Theorem reinsert_unobservable (text : ptr -> string) (k v : ptr)
    (m m' : Map) :
  wf m -> put k v m = Some (tt, m') ->
  Exists (fun e => same_key text (key e) k) (contents m) ->
  size m' = size m + 1 /\
  forall q : ptr, exists r : ptr,
    get text q m = Some (r, m) /\ get text q m' = Some (r, m').
Proof.
  intros Hwf Hput Hk.
  destruct (put_spec k v m m' Hwf Hput) as (_ & Hsz & _).
  split; [exact Hsz|]. intros q. exists (scan text q (contents m)).
  split; [now apply get_scan|].
  rewrite (get_put_scan text k v q m m' Hwf Hput). f_equal. f_equal.
  destruct (match_cases text q (contents m)) as [Hhit|Hmiss].
  - now apply scan_app_hit.
  - rewrite scan_app_miss by exact Hmiss.
    rewrite (scan_miss text q (contents m) Hmiss).
    apply (scan_skip text q (mkEntry k v) []). simpl. intros Hkq.
    apply Exists_exists in Hk. destruct Hk as (e & He & Hek).
    rewrite Forall_forall in Hmiss. apply (Hmiss e He).
    unfold same_key in *. congruence.
Qed.

(** After ("x","1"), a put of ("x","2") changes the answer to no query. *)
Lemma reinsert_unobservable_witness :
  exists m m', run 4 [(7, 2)] = Some m /\ put 8 4 m = Some (tt, m') /\
               size m' = 2 /\ get demo_text 7 m' = Some (2, m').
Proof.
  pose (m0 := mkMap [Some (mkEntry 7 2); None; None; None] 1 4).
  assert (Hrun : run 4 [(7, 2)] = Some m0) by (vm_compute; reflexivity).
  assert (Hwf : wf m0) by (apply (run_wf 4 [(7, 2)]); exact Hrun).
  destruct (put 8 4 m0) as [[[] m']|] eqn:Hput; [|vm_compute in Hput; discriminate].
  destruct (reinsert_unobservable demo_text 8 4 m0 m' Hwf Hput) as [Hsz Hq].
  - vm_compute. apply Exists_cons_hd. reflexivity.
  - exists m0, m'. split; [exact Hrun|]. split; [exact Hput|].
    split; [rewrite Hsz; reflexivity|].
    destruct (Hq 7) as (r & Hr & Hr'). rewrite Hr'.
    vm_compute in Hr. injection Hr as <-. reflexivity.
Defined.

(** X4 (a stored null value hides the key). When no entry of a well-formed
    container has the content of k, after [put k nullptr] and any further
    [put]s the container holds an entry for k, yet [get] of k, or of any key
    with its content, returns the null pointer, as for a key that is not
    there. *)
Theorem null_value_shadows (text : ptr -> string) (k q : ptr)
    (ops : list (ptr * ptr)) (m m' : Map) :
  wf m ->
  Forall (fun e => ~ same_key text (key e) k) (contents m) ->
  same_key text q k ->
  puts ((k, nullptr) :: ops) m = Some (tt, m') ->
  In (mkEntry k nullptr) (contents m') /\
  get text q m' = Some (nullptr, m').
Proof.
  intros Hwf Hmiss Hq Hrun.
  destruct (puts_spec _ m m' Hwf Hrun) as (Hwf' & _ & _ & Hct).
  split.
  - rewrite Hct. apply in_or_app. right. left. reflexivity.
  - rewrite get_scan by exact Hwf'. f_equal. f_equal.
    rewrite Hct, (scan_same_key text q k) by exact Hq.
    rewrite scan_app_miss by exact Hmiss.
    apply (scan_hit text k (mkEntry k nullptr)). reflexivity.
Qed.

(** put ("x", null) then put ("x","2"): get "x" is null. *)
Lemma null_value_shadows_witness :
  exists m', puts [(7, nullptr); (8, 4)] (Map_new 4) = Some (tt, m') /\
             get demo_text 7 m' = Some (nullptr, m').
Proof.
  destruct (puts [(7, nullptr); (8, 4)] (Map_new 4)) as [[[] m']|] eqn:Hrun;
    [|vm_compute in Hrun; discriminate].
  exists m'. split; [reflexivity|].
  apply (null_value_shadows demo_text 7 7 [(8, 4)] (Map_new 4) m').
  - apply wf_Map_new.
  - constructor.
  - reflexivity.
  - exact Hrun.
Defined.

Lemma scan_distinct_perm (text : ptr -> string) (q : ptr)
    (ops ops' : list (ptr * ptr)) :
  Permutation ops ops' -> NoDup (key_contents text ops) ->
  scan text q (entries_of ops) = scan text q (entries_of ops').
Proof.
  intros Hperm Hnd.
  assert (Hnd' : NoDup (key_contents text ops')).
  { unfold key_contents in *.
    now rewrite <- (Permutation_map (fun kv => content (text (fst kv))) Hperm). }
  destruct (match_cases text q (entries_of ops)) as [Hhit|Hmiss].
  - apply Exists_exists in Hhit. destruct Hhit as (e & He & Hq).
    apply list_elem_of_In in He. unfold entries_of in He.
    apply in_map_iff in He. destruct He as ([k v] & <- & Hin).
    simpl in Hq.
    assert (Hqk : same_key text q k) by (unfold same_key in *; congruence).
    rewrite !(scan_same_key text q k) by exact Hqk.
    rewrite (scan_distinct text ops Hnd k v Hin).
    symmetry. apply (scan_distinct text ops' Hnd' k v).
    now apply (Permutation_in _ Hperm).
  - rewrite (scan_miss text q _ Hmiss). symmetry. apply scan_miss.
    unfold entries_of in *.
    now rewrite <- (Permutation_map (fun kv => mkEntry (fst kv) (snd kv)) Hperm).
Qed.

(** X3 (the order of distinct keys is not observable). Two runs from the same
    capacity that make the same [put]s, with pairwise distinct key contents,
    in different orders return the same result to every [get]; both runs have
    a result whenever they fit in memory. *)
Theorem put_order_irrelevant (text : ptr -> string) (c : N)
    (ops ops' : list (ptr * ptr)) :
  Permutation ops ops' ->
  NoDup (key_contents text ops) ->
  (1 <= c -> fits c ops ->
   exists m m', run c ops = Some m /\ run c ops' = Some m') /\
  (forall m m', run c ops = Some m -> run c ops' = Some m' ->
     forall q : ptr, exists r : ptr,
       get text q m = Some (r, m) /\ get text q m' = Some (r, m')).
Proof.
  intros Hperm Hnd. split.
  - intros Hc Hfit.
    assert (Hfit' : fits c ops').
    { unfold fits in *. now rewrite <- (Permutation_length Hperm). }
    destruct (run_fits c ops Hc Hfit) as [m Hm].
    destruct (run_fits c ops' Hc Hfit') as [m' Hm'].
    now exists m, m'.
  - intros m m' Hm Hm' q. exists (scan text q (entries_of ops)).
    split; [now apply (run_get text c ops)|].
    rewrite (scan_distinct_perm text q ops ops' Hperm Hnd).
    now apply (run_get text c ops').
Qed.

(** ("a","1"), ("b","2") and ("b","2"), ("a","1") answer get "a" alike. *)
Lemma put_order_irrelevant_witness :
  exists m m' r,
    run 2 [(1, 2); (3, 4)] = Some m /\ run 2 [(3, 4); (1, 2)] = Some m' /\
    get demo_text 1 m = Some (r, m) /\ get demo_text 1 m' = Some (r, m').
Proof.
  destruct (put_order_irrelevant demo_text 2 [(1, 2); (3, 4)]
              [(3, 4); (1, 2)]) as [Htot Hobs].
  - apply perm_swap.
  - unfold key_contents. simpl.
    repeat (constructor;
            [rewrite list_elem_of_In; simpl; intuition discriminate|]).
    constructor.
  - destruct Htot as (m & m' & Hm & Hm'); [lia | unfold fits; simpl; lia |].
    destruct (Hobs m m' Hm Hm' 1) as (r & Hr & Hr').
    exists m, m', r. repeat split; assumption.
Defined.

Lemma get_loop_frame (text : ptr -> string) (k : ptr) (n : nat) :
  forall (i : N) (m1 m2 : Map),
    i + N.of_nat n < 2 ^ 64 ->
    (forall j : nat, (N.to_nat i <= j < N.to_nat i + n)%nat ->
       entries m1 !! j = entries m2 !! j) ->
    fst <$> get_loop text k n i m1 = fst <$> get_loop text k n i m2.
Proof.
  induction n as [|n IH]; intros i m1 m2 Hb Hsame; simpl; [reflexivity|].
  unfold bind, load_entry.
  rewrite <- (Hsame (N.to_nat i)) by lia.
  destruct (entries m1 !! N.to_nat i) as [[e|]|]; try reflexivity.
  destruct (strcmp (text (key e)) (text k) =? 0)%Z; [reflexivity|].
  rewrite wrap_small by lia.
  apply IH; [lia|]. intros j Hj. apply Hsame. lia.
Qed.

(** X5 (get reads only the slots below size). In any two container states
    with the same size (a [size_t]) and the same slots below it, whatever
    their capacities and their slots from size on, [get] returns the same
    pointer, or is undefined in both. *)
Theorem get_reads_below_size (text : ptr -> string) (k : ptr)
    (m1 m2 : Map) :
  size m1 < 2 ^ 64 ->
  size m1 = size m2 ->
  stored m1 = stored m2 ->
  fst <$> get text k m1 = fst <$> get text k m2.
Proof.
  intros Hb Hsz Hst. unfold get, bind, load_size. rewrite <- Hsz.
  apply get_loop_frame; [lia|].
  intros j Hj.
  rewrite <- (lookup_stored m1 j), <- (lookup_stored m2 j) by lia.
  now rewrite Hst.
Qed.

(** A container with one entry and three unwritten slots, and one of another
    capacity with other entries written above size, answer get "a" alike. *)
Lemma get_reads_below_size_witness :
  fst <$> get demo_text 1
            (mkMap [Some (mkEntry 1 2); None; None; None] 1 4) =
  fst <$> get demo_text 1
            (mkMap [Some (mkEntry 1 2); Some (mkEntry 1 6)] 1 2).
Proof.
  apply get_reads_below_size.
  - simpl. lia.
  - reflexivity.
  - reflexivity.
Defined.

(** The capacity stays a doubling of [c], and if it is not [c] itself the
    container is more than half full. *)
Lemma puts_capacity_shape (c : N) (ops : list (ptr * ptr)) :
  forall m m' : Map,
    wf m -> puts ops m = Some (tt, m') ->
    (exists j : N, capacity m = c * 2 ^ j) ->
    (capacity m = c \/ capacity m < 2 * size m) ->
    (exists j : N, capacity m' = c * 2 ^ j) /\
    (capacity m' = c \/ capacity m' < 2 * size m').
Proof.
  induction ops as [|[k v] rest IH]; intros m m' Hwf Hrun Hpow Hhalf;
    simpl in Hrun.
  - injection Hrun as <-. now split.
  - unfold bind in Hrun.
    destruct (put k v m) as [[[] m1]|] eqn:Hput; [|discriminate].
    destruct (put_spec k v m m1 Hwf Hput) as (Hwf1 & Hsz1 & Hcap1 & _).
    apply (IH m1 m' Hwf1 Hrun).
    + destruct Hpow as [j Hj]. rewrite Hcap1.
      destruct (size m =? capacity m); [|now exists j].
      exists (j + 1). rewrite Hj, N.pow_add_r. lia.
    + rewrite Hcap1, Hsz1.
      destruct (N.eqb_spec (size m) (capacity m)) as [E|E]; lia.
Qed.

(** X6 (the capacity after a run). After n [put]s on a container constructed
    with capacity c, the capacity is c doubled some number of times; it is
    still c when n <= c (no growth before the container is full), and when
    n > c it is at least n and less than 2 n. *)
Theorem capacity_after_run (c : N) (ops : list (ptr * ptr)) (m : Map) :
  run c ops = Some m ->
  (exists j : N, capacity m = c * 2 ^ j) /\
  (N.of_nat (length ops) <= c -> capacity m = c) /\
  (c < N.of_nat (length ops) ->
   N.of_nat (length ops) <= capacity m /\
   capacity m < 2 * N.of_nat (length ops)).
Proof.
  intros Hrun. destruct (run_size c ops m Hrun) as [Hsz Hle].
  apply run_Some in Hrun.
  destruct (puts_capacity_shape c ops _ m (wf_Map_new c) Hrun)
    as [Hpow Hhalf].
  { exists 0. simpl. lia. }
  { left. reflexivity. }
  split; [exact Hpow|]. split.
  - intros Hn.
    apply (puts_room ops (Map_new c) m (wf_Map_new c)); [simpl; lia|].
    exact Hrun.
  - intros Hn. split; [lia|]. destruct Hhalf as [E|E]; lia.
Qed.

(** Scenario A: three [put]s from capacity 2 end with capacity 4. *)
Lemma capacity_after_run_witness :
  exists m, run 2 [(1, 2); (3, 4); (5, 6)] = Some m /\
            3 <= capacity m /\ capacity m < 6.
Proof.
  eexists. split; [vm_compute; reflexivity|].
  apply (capacity_after_run 2 [(1, 2); (3, 4); (5, 6)]).
  - vm_compute. reflexivity.
  - simpl. lia.
Defined.





Lemma unwritten_Map_new (c : N) : unwritten (Map_new c).
Proof.
  intros i Hi. unfold Map_new, malloc in *. simpl in *.
  rewrite length_replicate in Hi. apply lookup_replicate_2. lia.
Qed.

Lemma put_unwritten (k v : ptr) (m m' : Map) :
  wf m -> exact m -> size m < 2 ^ 59 -> unwritten m ->
  put k v m = Some (tt, m') ->
  exact m' /\ unwritten m'.
Proof.
  intros Hwf Hex Hb Hun Hput.
  destruct (put_total k v m Hwf Hex Hb) as (m1 & Hput1 & Hex1).
  rewrite Hput in Hput1. injection Hput1 as <-.
  split; [exact Hex1|].
  pose proof Hwf as (_ & _ & Hsz & _).
  destruct Hex as (Hlen & Hpos & Hcap).
  rewrite put_unfold in Hput.
  destruct (decide _) as [Hroom|]; [|discriminate].
  injection Hput as <-. intros i Hi. simpl in *.
  rewrite length_insert in Hi.
  assert (Hw : wrap (size m + 1) = size m + 1) by (apply wrap_small; lia).
  rewrite Hw in Hi.
  rewrite list_lookup_insert_ne by lia.
  revert Hi Hroom. unfold grown.
  destruct (N.eqb_spec (size m) (capacity m)) as [E|E]; simpl.
  - rewrite length_realloc.
    assert (Hw2 : wrap (capacity m * 2) = capacity m * 2)
      by (apply wrap_small; lia).
    rewrite Hw2, slots_of_wrap_small by lia.
    intros Hi _. unfold realloc.
    rewrite slots_of_wrap_small by lia.
    rewrite lookup_app_r by (rewrite length_take; lia).
    apply lookup_replicate_2. rewrite length_take. lia.
  - intros Hi _. apply Hun. lia.
Qed.

Lemma puts_unwritten (ops : list (ptr * ptr)) :
  forall m m' : Map,
    wf m -> exact m -> size m + N.of_nat (length ops) <= 2 ^ 59 ->
    unwritten m -> puts ops m = Some (tt, m') ->
    exact m' /\ unwritten m'.
Proof.
  induction ops as [|[k v] rest IH]; intros m m' Hwf Hex Hb Hun Hrun;
    simpl in Hrun.
  - injection Hrun as <-. now split.
  - unfold bind in Hrun. simpl length in Hb.
    destruct (put k v m) as [[[] m1]|] eqn:Hput; [|discriminate].
    destruct (put_spec k v m m1 Hwf Hput) as (Hwf1 & Hsz1 & _).
    destruct (put_unwritten k v m m1 Hwf Hex) as [Hex1 Hun1];
      [lia | exact Hun | exact Hput |].
    apply (IH m1 m' Hwf1 Hex1); [lia | exact Hun1 | exact Hrun].
Qed.

(** X8 (the whole buffer after a run). After a run that fits in memory on a
    container constructed with capacity at least 1, the allocation has
    exactly capacity slots: the first ones hold the entries of the [put]s in
    order, and all the others are still unwritten. *)
Theorem buffer_after_run (c : N) (ops : list (ptr * ptr)) (m : Map) :
  1 <= c -> fits c ops -> run c ops = Some m ->
  entries m =
  (Some <$> entries_of ops) ++
  replicate (N.to_nat (capacity m) - length ops) None.
Proof.
  intros Hc [Hfc Hfn] Hrun.
  destruct (run_wf c ops m Hrun) as [Hwf Hct].
  destruct (run_size c ops m Hrun) as [Hsz _].
  apply run_Some in Hrun.
  destruct (puts_unwritten ops (Map_new c) m (wf_Map_new c)) as [Hex Hun];
    [now apply exact_Map_new | simpl; lia | apply unwritten_Map_new
    | exact Hrun |].
  destruct Hex as (Hlen & _).
  pose proof Hwf as (_ & _ & _ & Hst).
  rewrite <- (take_drop (N.to_nat (size m)) (entries m)) at 1.
  f_equal.
  - fold (stored m). now rewrite Hst, Hct.
  - symmetry. apply replicate_as_elem_of. split.
    + rewrite length_drop. lia.
    + intros y Hy. apply list_elem_of_lookup in Hy. destruct Hy as [i Hi].
      rewrite lookup_drop in Hi.
      pose proof (lookup_lt_Some _ _ _ Hi) as Hlt.
      rewrite Hun in Hi by lia. congruence.
Qed.

(** Scenario A: the buffer holds the three entries and one unwritten slot. *)
Lemma buffer_after_run_witness :
  exists m, run 2 [(1, 2); (3, 4); (5, 6)] = Some m /\
            entries m = [Some (mkEntry 1 2); Some (mkEntry 3 4);
                         Some (mkEntry 5 6); None].
Proof.
  eexists. split; [vm_compute; reflexivity|].
  rewrite (buffer_after_run 2 [(1, 2); (3, 4); (5, 6)]).
  - reflexivity.
  - lia.
  - unfold fits. simpl. lia.
  - vm_compute. reflexivity.
Defined.

Lemma scan_text_ext (text text' : ptr -> string) (q : ptr)
    (es : list Entry) :
  (forall e, In e es -> same_key text (key e) q <-> same_key text' (key e) q) ->
  scan text q es = scan text' q es.
Proof.
  induction es as [|e es IH]; intros Hagree; [reflexivity|].
  destruct (String.string_dec (content (text (key e))) (content (text q)))
    as [E|E].
  - rewrite !scan_hit; [reflexivity | | exact E].
    apply (Hagree e); [now left | exact E].
  - rewrite !scan_skip; [| | exact E].
    + apply IH. intros e' He'. apply Hagree. now right.
    + intros E'. apply E. apply (Hagree e); [now left | exact E'].
Qed.

(** X9 (get reads the text of keys only). On a well-formed container, two
    text stores that give every stored key and the query key the same
    content lead [get] to the same result, however they differ elsewhere, in
    particular on the text behind the values: that text is never read. *)
Theorem get_reads_key_text_only (text text' : ptr -> string) (q : ptr)
    (m : Map) :
  wf m ->
  (forall e, In e (contents m) ->
     content (text (key e)) = content (text' (key e))) ->
  content (text q) = content (text' q) ->
  get text q m = get text' q m.
Proof.
  intros Hwf Hkeys Hq. rewrite !get_scan by exact Hwf. f_equal. f_equal.
  apply scan_text_ext. intros e He. unfold same_key.
  rewrite (Hkeys e He), Hq. reflexivity.
Qed.

(** In Scenario B the lookup of "x" is the same when the text behind the
    values, at addresses 2 and 4, is replaced. *)
Lemma get_reads_key_text_only_witness :
  exists m, run 4 [(7, 2); (8, 4)] = Some m /\
            get demo_text 7 m =
            get (fun p => if (p =? 2) || (p =? 4) then "?"%string
                          else demo_text p) 7 m.
Proof.
  eexists. split; [vm_compute; reflexivity|].
  apply get_reads_key_text_only.
  - apply (run_wf 4 [(7, 2); (8, 4)]). vm_compute. reflexivity.
  - vm_compute. intros e [<-|[<-|[]]]; reflexivity.
  - reflexivity.
Defined.
